(** * Right-biased deep merge ([src/core/merge_right.rs])

    A shallow embedding of the [MergeRight] trait and its implementations:
    the [Valid] result type it returns, the generic containers ([Option],
    [Arc], [Vec], [BTreeSet], [HashSet], [HashMap]) and the document tree
    [serde_yaml::Value] with its insertion-ordered [Mapping]. *)

From stdpp Require Import gmap.
From Stdlib Require Import List ZArith String Ascii Bool Lia.
Import ListNotations.

Set Warnings "-register-all".

(* ------------------------------------------------------------------ *)
(** ** [Valid<A, String>] *)

(** The error collection of [ValidationError<String>]: its causes in
    encounter order; [empty], [combine] and [is_empty] as used by the
    merges. *)
Definition ValidationError := list string.

Definition ValidationError_empty : ValidationError := [].

Definition ValidationError_combine (a b : ValidationError) : ValidationError :=
  a ++ b.

Definition ValidationError_is_empty (e : ValidationError) : bool :=
  match e with [] => true | _ => false end.

(** [Valid<A, String>] wraps [Result<A, ValidationError<String>>]. *)
Inductive Valid (A : Type) : Type :=
| Success (a : A)
| Failure (e : ValidationError).
Arguments Success {A} a.
Arguments Failure {A} e.

Definition succeed {A} (a : A) : Valid A := Success a.

Definition from_validation_err {A} (e : ValidationError) : Valid A := Failure e.

Definition valid_map {A B} (f : A -> B) (v : Valid A) : Valid B :=
  match v with
  | Success a => Success (f a)
  | Failure e => Failure e
  end.

(* ------------------------------------------------------------------ *)
(** ** [serde_yaml::value::Tag] *)

(** A tag; [Tag]'s [PartialEq] compares the strings with one leading
    ['!'] removed ([nobang]), where a lone ["!"] is kept. *)
Record Tag := { tag_string : string }.

Definition bang : ascii := "!"%char.

Definition nobang (s : string) : string :=
  match s with
  | String.String c rest =>
      if Ascii.eqb c bang && negb (String.eqb rest EmptyString) then rest else s
  | EmptyString => s
  end.

Definition tag_eqb (a b : Tag) : bool :=
  String.eqb (nobang (tag_string a)) (nobang (tag_string b)).

(* ------------------------------------------------------------------ *)
(** ** [serde_yaml::Value] *)

(** [serde_yaml::Number] (type [number] here); the integer representations.  Floats are not
    modelled: no merge rule looks inside a number. *)
Inductive number :=
| PosInt (n : N)
| NegInt (z : Z).

(** The YAML value.  [Mapping] is an [IndexMap<Value, Value>], kept as its
    entries in insertion order; [Tagged] is [Tagged(Box<TaggedValue>)]
    with the fields [tag] and [value] of [TaggedValue]. *)
Inductive Value :=
| Null
| Bool (b : bool)
| Number (n : number)
| String (s : string)
| Sequence (l : list Value)
| Mapping (m : list (Value * Value))
| Tagged (tag : Tag) (value : Value).

Definition Mapping_t := list (Value * Value).

(** *** Key equality

    [Mapping] looks keys up with [Value]'s [Eq]: structural, except that
    tags compare through [nobang] and mappings compare as maps (entry
    order ignored, as [IndexMap]'s [PartialEq]).  It is computed here as
    equality of a canonical form in which mapping entries are sorted. *)
Definition str_canon (s : string) : list Z :=
  Z.of_nat (String.length s)
    :: map (fun c => Z.of_nat (nat_of_ascii c)) (list_ascii_of_string s).

Fixpoint lex_leb (a b : list Z) : bool :=
  match a, b with
  | [], _ => true
  | _ :: _, [] => false
  | x :: a', y :: b' =>
      if Z.ltb x y then true else if Z.eqb x y then lex_leb a' b' else false
  end.

Fixpoint insert_sorted (x : list Z) (l : list (list Z)) : list (list Z) :=
  match l with
  | [] => [x]
  | y :: t => if lex_leb x y then x :: y :: t else y :: insert_sorted x t
  end.

Definition sort_canon (l : list (list Z)) : list (list Z) :=
  fold_right insert_sorted [] l.

Fixpoint canon (v : Value) : list Z :=
  match v with
  | Null => [0%Z]
  | Bool b => [1%Z; if b then 1%Z else 0%Z]
  | Number (PosInt n) => [2%Z; Z.of_N n]
  | Number (NegInt z) => [3%Z; z]
  | String s => 4%Z :: str_canon s
  | Sequence l =>
      5%Z :: Z.of_nat (List.length l)
        :: (fix go (l : list Value) : list Z :=
              match l with [] => [] | x :: t => canon x ++ go t end) l
  | Mapping m =>
      6%Z :: Z.of_nat (List.length m)
        :: List.concat (sort_canon
             ((fix go (m : list (Value * Value)) : list (list Z) :=
                 match m with
                 | [] => []
                 | (k, x) :: t => (canon k ++ canon x) :: go t
                 end) m))
  | Tagged t x => 7%Z :: str_canon (nobang (tag_string t)) ++ canon x
  end.

Definition value_eqb (a b : Value) : bool := bool_decide (canon a = canon b).

(** *** [serde_yaml::Mapping] operations (an [IndexMap]) *)

(** The first entry whose key equals [k]: the entries before it, the
    entry, and the entries after it. *)
Fixpoint mapping_split (k : Value) (m : Mapping_t)
  : option (Mapping_t * (Value * Value) * Mapping_t) :=
  match m with
  | [] => None
  | (k0, v0) :: t =>
      if value_eqb k k0 then Some ([], (k0, v0), t)
      else match mapping_split k t with
           | Some (pre, e, post) => Some ((k0, v0) :: pre, e, post)
           | None => None
           end
  end.

Definition mapping_get (k : Value) (m : Mapping_t) : option Value :=
  match mapping_split k m with
  | Some (_, (_, v), _) => Some v
  | None => None
  end.

(** [Mapping::remove] is [swap_remove]: the removed entry's slot is taken
    by the last entry, the other entries keep their order. *)
Definition mapping_remove (k : Value) (m : Mapping_t) : option Value * Mapping_t :=
  match mapping_split k m with
  | Some (pre, (_, v), post) =>
      (Some v, match rev post with
               | [] => pre
               | last :: rmid => pre ++ last :: rev rmid
               end)
  | None => (None, m)
  end.

(** [Mapping::insert]: an existing equal key keeps its slot and gets the
    new value; a new key is appended. *)
Definition mapping_insert (k : Value) (v : Value) (m : Mapping_t) : Mapping_t :=
  match mapping_split k m with
  | Some (pre, (k0, _), post) => pre ++ (k0, v) :: post
  | None => m ++ [(k, v)]
  end.

(** *** The loop of the [(Mapping, Mapping)] arm (lines 116-130) *)
Section MappingLoop.
Variable merge_right : Value -> Value -> Valid Value.

Fixpoint mapping_loop (lhs rhs : Mapping_t) (errors : ValidationError)
  : Mapping_t * ValidationError :=
  match rhs with
  | [] => (lhs, errors)
  | (key, other_value) :: rest =>
      match mapping_remove key lhs with
      | (Some lhs_value, lhs1) =>
          match merge_right lhs_value other_value with
          | Success merged_value =>
              mapping_loop (mapping_insert key merged_value lhs1) rest errors
          | Failure err =>
              mapping_loop lhs1 rest (ValidationError_combine errors err)
          end
      | (None, lhs1) => mapping_loop (mapping_insert key other_value lhs1) rest errors
      end
  end.

(** Lines 132-136. *)
Definition mapping_finish (r : Mapping_t * ValidationError) : Valid Value :=
  let '(lhs, errors) := r in
  if ValidationError_is_empty errors then succeed (Mapping lhs)
  else from_validation_err errors.
End MappingLoop.

(** *** [impl MergeRight for Value] (lines 98-157)

    Structural on the right operand: every recursive call takes a value
    of [other].  The [?] of the tagged arm returns the inner failure. *)
Fixpoint merge_right (self other : Value) {struct other} : Valid Value :=
  match self with
  | Null | Bool _ | Number _ | String _ => succeed other
  | Sequence lhs =>
      match other with
      | Sequence rhs => succeed (Sequence (lhs ++ rhs))
      | other => succeed (Sequence (lhs ++ [other]))
      end
  | Mapping lhs =>
      match other with
      | Mapping rhs => mapping_finish (mapping_loop merge_right lhs rhs ValidationError_empty)
      | Sequence rhs => succeed (Sequence (rhs ++ [Mapping lhs]))
      | other => succeed other
      end
  | Tagged ltag lvalue =>
      match other with
      | Tagged rtag rvalue =>
          if tag_eqb ltag rtag then
            match merge_right lvalue rvalue with
            | Success v => succeed (Tagged ltag v)
            | Failure e => Failure e
            end
          else succeed (Tagged rtag rvalue)
      | other => succeed other
      end
  end.

(** [impl Default for Value]. *)
Definition value_default : Value := Null.

(* ------------------------------------------------------------------ *)
(** ** The generic containers (lines 11-96) *)

(** [impl<A: MergeRight> MergeRight for Option<A>] (lines 11-20).  As
    written, the arms [Some(this.merge_right(that))], [Some(that)] and
    [Some(this)] are bare options where [Valid<Option<A>, String>] is
    expected; only the [(None, None)] arm wraps its result with
    [Valid::succeed].  They are read here the way that arm writes its
    result: each option wrapped in [succeed], the recursive merge mapped
    through [Some]. *)
Definition option_merge_right {A} (merge_A : A -> A -> Valid A) (self other : option A)
  : Valid (option A) :=
  match self, other with
  | Some this, Some that => valid_map Some (merge_A this that)
  | None, Some that => succeed (Some that)
  | Some this, None => succeed (Some this)
  | None, None => succeed None
  end.

(** The [Arc] allocations alive: each location holds the shared value
    and its strong count.  Clones of one [Arc] are handles to the same
    location, so they share its count. *)
Abbreviation ArcHeap A := (gmap nat (A * nat)).

(** An [Arc<A>]: a handle to its allocation. *)
Definition Arc := nat.

(** [Arc::new]: a fresh allocation with strong count 1. *)
Definition arc_new {A} (h : ArcHeap A) (a : A) : Arc * ArcHeap A :=
  let p := fresh (dom h) in (p, <[p := (a, 1)]> h).

(** [Arc::into_inner]: consumes the handle.  When it was the only strong
    reference the value is moved out and the allocation freed; otherwise
    the handle is dropped, lowering the shared strong count, and [None]
    is returned (the other holders keep the value). *)
Definition arc_into_inner {A} (h : ArcHeap A) (this : Arc) : option A * ArcHeap A :=
  match h !! this with
  | Some (v, c) =>
      if Nat.eqb c 1 then (Some v, delete this h)
      else (None, <[this := (v, Nat.pred c)]> h)
  | None => (None, h)
  end.

Definition unwrap_or_default {A} (default : A) (o : option A) : A :=
  match o with Some a => a | None => default end.

(** [impl<A: MergeRight + Default> MergeRight for Arc<A>] (lines 22-28):
    [Arc::into_inner(self)], then [Arc::into_inner(other)] (in this order,
    on the same counts), then [Arc::new(l.merge_right(r).unwrap_or_default())].
    The re-wrapped value is returned in [Valid], as the other impls
    return theirs. *)
Definition arc_merge_right {A} (merge_A : A -> A -> Valid A) (default : A)
           (h : ArcHeap A) (self other : Arc) : Valid Arc * ArcHeap A :=
  let (l, h1) := arc_into_inner h self in
  let (r, h2) := arc_into_inner h1 other in
  match option_merge_right merge_A l r with
  | Success o => let (p, h3) := arc_new h2 (unwrap_or_default default o) in (Success p, h3)
  | Failure e => (Failure e, h2)
  end.

(** The result of an [Arc] merge is a new [Arc] holding [x], not shared. *)
Definition arc_holds {A} (res : Valid Arc * ArcHeap A) (x : A) : Prop :=
  match res with
  | (Success p, h) => h !! p = Some (x, 1)
  | (Failure _, _) => False
  end.

(** A heap with a uniquely held [Sequence [true]] at 0 and a shared
    [Sequence [false]] (two strong references) at 1. *)
Definition arc_heap_ex : ArcHeap Value :=
  <[0 := (Sequence [Bool true], 1)]> (<[1 := (Sequence [Bool false], 2)]> ∅).

(** [impl<A> MergeRight for Vec<A>] (lines 30-35): [self.extend(other)]. *)
Definition vec_merge_right {A} (self other : list A) : Valid (list A) :=
  succeed (self ++ other).

(** [impl MergeRight for BTreeSet<V>] (lines 68-76): [self.extend(other)]
    inserts every element of [other]; the set model forgets the order. *)
Definition btreeset_merge_right `{Countable V} (self other : gset V) : Valid (gset V) :=
  succeed (self ∪ other).

(** [impl MergeRight for HashSet<V>] (lines 78-86): [self.extend(other)]. *)
Definition hashset_merge_right `{Countable V} (self other : gset V) : Valid (gset V) :=
  succeed (self ∪ other).

(** [HashMap::extend]: [insert] of every entry of [other], in its
    iteration order. *)
Definition hashmap_extend `{Countable K} {V} (self other : gmap K V) : gmap K V :=
  map_fold (fun k v acc => <[k:=v]> acc) self other.

(** [impl MergeRight for HashMap<K, V>] (lines 88-96). *)
Definition hashmap_merge_right `{Countable K} {V} (self other : gmap K V)
  : Valid (gmap K V) :=
  succeed (hashmap_extend self other).

(** [BTreeMap<K, V>] iterates in ascending key order ([K: Ord], here the
    comparison [key_leb]): the entries of the map sorted by key. *)
Fixpoint insert_by_key {K V} (key_leb : K -> K -> bool) (e : K * V) (l : list (K * V))
  : list (K * V) :=
  match l with
  | [] => [e]
  | e' :: t => if key_leb e.1 e'.1 then e :: e' :: t else e' :: insert_by_key key_leb e t
  end.

Definition btreemap_entries `{Countable K} {V} (key_leb : K -> K -> bool) (m : gmap K V)
  : list (K * V) :=
  fold_right (insert_by_key key_leb) [] (map_to_list m).

Section BTreeMapMerge.
Context `{Countable K} (key_leb : K -> K -> bool) {V : Type} (merge_V : V -> V -> Valid V).

(** The [for (other_key, other_value) in other] loop of
    [impl MergeRight for BTreeMap<K, V>] (lines 45-58): [self.remove]
    is a lookup followed by [delete]. *)
Fixpoint btreemap_loop (self : gmap K V) (entries : list (K * V)) (errors : ValidationError)
  : gmap K V * ValidationError :=
  match entries with
  | [] => (self, errors)
  | (other_key, other_value) :: rest =>
      match self !! other_key with
      | Some self_value =>
          let self1 := delete other_key self in
          match merge_V self_value other_value with
          | Success merged_value => btreemap_loop (<[other_key:=merged_value]> self1) rest errors
          | Failure err => btreemap_loop self1 rest (ValidationError_combine errors err)
          end
      | None => btreemap_loop (<[other_key:=other_value]> self) rest errors
      end
  end.

(** [impl MergeRight for BTreeMap<K, V>] (lines 37-66). *)
Definition btreemap_merge_right (self other : gmap K V) : Valid (gmap K V) :=
  let '(m, errors) := btreemap_loop self (btreemap_entries key_leb other) ValidationError_empty in
  if ValidationError_is_empty errors then succeed m else from_validation_err errors.

(** The errors of the shared keys whose values fail to merge, in the
    iteration order of [entries]. *)
Definition btreemap_failing (self : gmap K V) (entries : list (K * V)) : ValidationError :=
  flat_map (fun kv =>
              match self !! kv.1 with
              | Some sv => match merge_V sv kv.2 with Failure e => e | Success _ => [] end
              | None => []
              end) entries.

(** The key-wise union, shared values merged by [merge_V] (a failed merge
    leaves the key out). *)
Definition btreemap_union_get (self other : gmap K V) (k : K) : option V :=
  match self !! k, other !! k with
  | Some l, Some r => match merge_V l r with Success v => Some v | Failure _ => None end
  | None, Some r => Some r
  | Some l, None => Some l
  | None, None => None
  end.
End BTreeMapMerge.

(** *** Induction over values, through sequences and mapping entries *)
Section ValueInd.
Variable P : Value -> Prop.
Hypothesis HNull : P Null.
Hypothesis HBool : forall b, P (Bool b).
Hypothesis HNumber : forall x, P (Number x).
Hypothesis HString : forall x, P (String x).
Hypothesis HSequence : forall l, Forall P l -> P (Sequence l).
Hypothesis HMapping :
  forall m, Forall (fun kv => P (fst kv) /\ P (snd kv)) m -> P (Mapping m).
Hypothesis HTagged : forall t v, P v -> P (Tagged t v).

Fixpoint value_ind' (v : Value) : P v :=
  match v with
  | Null => HNull
  | Bool b => HBool b
  | Number x => HNumber x
  | String x => HString x
  | Sequence l =>
      HSequence l
        ((fix go (l : list Value) : Forall P l :=
            match l with
            | [] => @Forall_nil _ _
            | x :: t => @Forall_cons _ _ x t (value_ind' x) (go t)
            end) l)
  | Mapping m =>
      HMapping m
        ((fix go (m : list (Value * Value))
            : Forall (fun kv => P (fst kv) /\ P (snd kv)) m :=
            match m with
            | [] => @Forall_nil _ _
            | (k, x) :: t => @Forall_cons _ _ (k, x) t (conj (value_ind' k) (value_ind' x)) (go t)
            end) m)
  | Tagged t x => HTagged t x (value_ind' x)
  end.
End ValueInd.

(** The [Mapping] invariant: no two keys are equal. *)
Definition keys_unique (m : Mapping_t) : Prop :=
  NoDup (map (fun kv => canon (fst kv)) m).

(** A well-formed document: every mapping in it, at any depth, keeps
    its keys unique, as [Mapping] does. *)
Fixpoint value_wf (v : Value) : Prop :=
  match v with
  | Null | Bool _ | Number _ | String _ => True
  | Sequence l =>
      (fix go (l : list Value) : Prop :=
         match l with [] => True | x :: t => value_wf x /\ go t end) l
  | Mapping m =>
      keys_unique m /\
      (fix go (m : Mapping_t) : Prop :=
         match m with [] => True | (k, x) :: t => (value_wf k /\ value_wf x) /\ go t end) m
  | Tagged _ x => value_wf x
  end.

(** The value the key-wise union of two mappings gives a key, when the
    values of shared keys are combined by [f] (a failed combination
    leaves the key out). *)
Definition union_get (f : Value -> Value -> Valid Value) (lm rm : Mapping_t) (k : Value)
  : option Value :=
  match mapping_get k lm, mapping_get k rm with
  | Some lv, Some rv => match f lv rv with Success v => Some v | Failure _ => None end
  | None, Some rv => Some rv
  | Some lv, None => Some lv
  | None, None => None
  end.

(** The errors of the shared keys whose combination fails, in the order
    of the right mapping. *)
Definition failing_errors (f : Value -> Value -> Valid Value) (lm rm : Mapping_t)
  : ValidationError :=
  flat_map (fun kv =>
              match mapping_get (fst kv) lm with
              | Some lv => match f lv (snd kv) with Failure e => e | Success _ => [] end
              | None => []
              end) rm.

(** Short constructors for concrete documents. *)
Definition s (x : string) : Value := String x.
Definition n (z : N) : Value := Number (PosInt z).

Example merge_ex1 :
  merge_right (Mapping [(s "a", n 1); (s "b", n 2)]) (Mapping [(s "a", n 3); (s "c", n 4)])
  = Success (Mapping [(s "b", n 2); (s "a", n 3); (s "c", n 4)]).
Proof. vm_compute. reflexivity. Qed.

Example merge_ex_seq :
  merge_right (Sequence [n 1]) (Bool true) = Success (Sequence [n 1; Bool true]).
Proof. reflexivity. Qed.

Example merge_ex_tag_bang :
  merge_right (Tagged {| tag_string := "!T" |} (Sequence [n 1]))
              (Tagged {| tag_string := "T" |} (Sequence [n 2]))
  = Success (Tagged {| tag_string := "!T" |} (Sequence [n 1; n 2])).
Proof. vm_compute. reflexivity. Qed.

(* ================================================================== *)
(** * Properties of [Value::merge_right] *)

Lemma tag_eqb_refl (t : Tag) : tag_eqb t t = true.
Proof. unfold tag_eqb. apply String.eqb_refl. Qed.

(** When every merge the loop may run on a right value succeeds, the loop
    adds no error. *)
Lemma mapping_loop_errors_unchanged (f : Value -> Value -> Valid Value)
      (lhs rhs : Mapping_t) (errors : ValidationError) :
  (forall kv, In kv rhs -> forall x, exists y, f x (snd kv) = Success y) ->
  snd (mapping_loop f lhs rhs errors) = errors.
Proof.
  revert lhs. induction rhs as [|[key ov] rest IH]; intros lhs Hall; simpl; [reflexivity|].
  assert (Hrest : forall kv, In kv rest -> forall x, exists y, f x (snd kv) = Success y)
    by (intros kv Hin; apply Hall; right; exact Hin).
  destruct (mapping_remove key lhs) as [[lv|] lhs1].
  - destruct (Hall (key, ov) (or_introl eq_refl) lv) as [y Hy]. simpl in Hy.
    rewrite Hy. apply IH, Hrest.
  - apply IH, Hrest.
Qed.

(** C2: a scalar left operand is replaced by the right operand. *)
Theorem merge_right_scalar_left (other : Value) :
  merge_right Null other = Success other /\
  (forall b, merge_right (Bool b) other = Success other) /\
  (forall x, merge_right (Number x) other = Success other) /\
  (forall x, merge_right (String x) other = Success other).
Proof. destruct other; repeat split. Qed.

(** C3: a left sequence is concatenated with a right sequence, and gets
    any other right value appended as one trailing element. *)
Theorem merge_right_sequence_left (ls : list Value) :
  (forall rs, merge_right (Sequence ls) (Sequence rs) = Success (Sequence (ls ++ rs))) /\
  (forall r, (forall rs, r <> Sequence rs) ->
             merge_right (Sequence ls) r = Success (Sequence (ls ++ [r]))).
Proof.
  split; [reflexivity|].
  intros r Hr. destruct r; try reflexivity.
  exfalso. eapply Hr. reflexivity.
Qed.

Lemma merge_right_sequence_left_witness :
  (forall rs, Mapping [] <> Sequence rs) /\
  merge_right (Sequence [n 1]) (Mapping []) = Success (Sequence ([n 1] ++ [Mapping []])).
Proof.
  split; [intros rs H; discriminate H|].
  apply (proj2 (merge_right_sequence_left [n 1]) (Mapping [])).
  intros rs H; discriminate H.
Defined.

(** C4: two tagged values with the same tag merge their inner values
    under that tag; a failure of the inner merge is the result itself. *)
Theorem merge_right_tagged_same_tag (t : Tag) (l r : Value) :
  merge_right (Tagged t l) (Tagged t r) =
  match merge_right l r with
  | Success m => Success (Tagged t m)
  | Failure e => Failure e
  end.
Proof. simpl. rewrite tag_eqb_refl. reflexivity. Qed.

(** C5: when the tags differ, the right tagged value replaces the left
    one, contents unmerged. *)
Theorem merge_right_tagged_other_tag (a b : Tag) (v1 v2 : Value) :
  tag_eqb a b = false ->
  merge_right (Tagged a v1) (Tagged b v2) = Success (Tagged b v2).
Proof. intros H. simpl. rewrite H. reflexivity. Qed.

Lemma merge_right_tagged_other_tag_witness :
  tag_eqb {| tag_string := "A" |} {| tag_string := "B" |} = false /\
  merge_right (Tagged {| tag_string := "A" |} (Sequence [n 1]))
              (Tagged {| tag_string := "B" |} (Sequence [n 2]))
  = Success (Tagged {| tag_string := "B" |} (Sequence [n 2])).
Proof.
  split; [vm_compute; reflexivity|].
  apply merge_right_tagged_other_tag. vm_compute. reflexivity.
Defined.

(** Every merge of two values succeeds. *)
Lemma merge_right_succeeds (other self : Value) :
  exists v, merge_right self other = Success v.
Proof.
  revert self.
  induction other as [| b | x | x | rs IH | rm IH | rt rv IH] using value_ind';
    intros self; destruct self as [| | | | ls | lm | lt lv];
    try (eexists; reflexivity).
  - (* Mapping, Mapping *)
    simpl.
    assert (Hloop : snd (mapping_loop merge_right lm rm ValidationError_empty)
                    = ValidationError_empty).
    { apply mapping_loop_errors_unchanged.
      intros kv Hin x. rewrite Forall_forall in IH. apply (proj2 (IH kv Hin)). }
    destruct (mapping_loop merge_right lm rm ValidationError_empty) as [m errs].
    simpl in Hloop. subst errs. eexists. reflexivity.
  - (* Tagged, Tagged *)
    simpl. destruct (tag_eqb lt rt).
    + destruct (IH lv) as [w Hw]. rewrite Hw. eexists. reflexivity.
    + eexists. reflexivity.
Qed.

(** C6: [Value::merge_right] never fails: its result is a [Success] for
    every pair of values, and the loop of the mapping arm, run with it,
    accumulates no error. *)
Theorem merge_right_never_fails (self other : Value) :
  (forall e, merge_right self other <> Failure e) /\
  (forall lhs rhs,
      snd (mapping_loop merge_right lhs rhs ValidationError_empty) = ValidationError_empty).
Proof.
  split.
  - intros e Heq. destruct (merge_right_succeeds other self) as [v Hv].
    rewrite Hv in Heq. discriminate Heq.
  - intros lhs rhs. apply mapping_loop_errors_unchanged.
    intros kv _ x. apply merge_right_succeeds.
Qed.

(* ================================================================== *)
(** * Lookups in a [Mapping] with unique keys *)

(** Checks [keys_unique] of a concrete mapping. *)
Ltac solve_keys_unique :=
  unfold keys_unique; vm_compute;
  repeat (apply NoDup_cons; [simpl; intuition discriminate|]);
  apply NoDup_nil.


Lemma value_eqb_true (a b : Value) : value_eqb a b = true <-> canon a = canon b.
Proof. unfold value_eqb. apply bool_decide_eq_true. Qed.

Lemma value_eqb_false (a b : Value) : value_eqb a b = false <-> canon a <> canon b.
Proof. unfold value_eqb. apply bool_decide_eq_false. Qed.

Lemma mapping_get_cons (k k0 v0 : Value) (t : Mapping_t) :
  mapping_get k ((k0, v0) :: t) = if value_eqb k k0 then Some v0 else mapping_get k t.
Proof.
  unfold mapping_get. simpl. destruct (value_eqb k k0); [reflexivity|].
  destruct (mapping_split k t) as [[[pre [k1 v1]] post]|]; reflexivity.
Qed.

Lemma mapping_get_nil (k : Value) : mapping_get k [] = None.
Proof. reflexivity. Qed.

Lemma mapping_get_canon (k k' : Value) (m : Mapping_t) :
  canon k = canon k' -> mapping_get k m = mapping_get k' m.
Proof.
  intros Hc. induction m as [|[k0 v0] t IH]; [reflexivity|].
  rewrite !mapping_get_cons, IH. unfold value_eqb. rewrite Hc. reflexivity.
Qed.

Lemma mapping_get_app_last (k : Value) (m : Mapping_t) (k1 v1 : Value) :
  mapping_get k (m ++ [(k1, v1)]) =
  match mapping_get k m with
  | Some x => Some x
  | None => if value_eqb k k1 then Some v1 else None
  end.
Proof.
  induction m as [|[k0 v0] t IH]; simpl.
  - rewrite mapping_get_cons, mapping_get_nil. reflexivity.
  - rewrite !mapping_get_cons, IH. destruct (value_eqb k k0); reflexivity.
Qed.

Lemma mapping_get_skip (k : Value) (pre post : Mapping_t) (e : Value * Value) :
  value_eqb k (fst e) = false ->
  mapping_get k (pre ++ e :: post) = mapping_get k (pre ++ post).
Proof.
  intros He. induction pre as [|[k0 v0] t IH]; simpl.
  - destruct e as [k1 v1]. rewrite mapping_get_cons. simpl in He. rewrite He. reflexivity.
  - rewrite !mapping_get_cons, IH. reflexivity.
Qed.

Lemma mapping_split_spec (k : Value) (m pre post : Mapping_t) (e : Value * Value) :
  mapping_split k m = Some (pre, e, post) ->
  m = pre ++ e :: post /\ value_eqb k (fst e) = true.
Proof.
  revert pre. induction m as [|[k0 v0] t IH]; intros pre Hs; simpl in Hs; [discriminate|].
  destruct (value_eqb k k0) eqn:E.
  - injection Hs as <- <- <-. split; [reflexivity|exact E].
  - destruct (mapping_split k t) as [[[pre' e'] post']|] eqn:Ht; [|discriminate].
    injection Hs as <- <- <-. destruct (IH pre' eq_refl) as [-> He].
    split; [reflexivity|exact He].
Qed.

Lemma mapping_get_In (k v : Value) (m : Mapping_t) :
  mapping_get k m = Some v -> exists k0, In (k0, v) m /\ canon k0 = canon k.
Proof.
  induction m as [|[k0 v0] t IH]; intros H; [discriminate|].
  rewrite mapping_get_cons in H. destruct (value_eqb k k0) eqn:E.
  - injection H as <-. apply value_eqb_true in E.
    exists k0. split; [left; reflexivity|symmetry; exact E].
  - destruct (IH H) as [k1 [Hin Hc]]. exists k1. split; [right; exact Hin|exact Hc].
Qed.

Lemma In_mapping_get (k k0 v : Value) (m : Mapping_t) :
  keys_unique m -> In (k0, v) m -> canon k0 = canon k -> mapping_get k m = Some v.
Proof.
  intros Hu Hin Hc. induction m as [|[k1 v1] t IH]; [destruct Hin|].
  unfold keys_unique in Hu. simpl in Hu. apply NoDup_cons_iff in Hu as [Hnot Hu].
  rewrite mapping_get_cons. destruct (value_eqb k k1) eqn:E.
  - apply value_eqb_true in E. destruct Hin as [Heq|Hin].
    + injection Heq as -> ->. reflexivity.
    + exfalso. apply Hnot. apply in_map_iff. exists (k0, v). simpl.
      split; [congruence|exact Hin].
  - destruct Hin as [Heq|Hin].
    + injection Heq as -> ->. apply value_eqb_false in E. congruence.
    + apply IH; assumption.
Qed.

Lemma keys_unique_perm (m1 m2 : Mapping_t) :
  Permutation m1 m2 -> keys_unique m1 -> keys_unique m2.
Proof.
  intros Hp Hu. unfold keys_unique in *.
  eapply Permutation_NoDup; [apply Permutation_map, Hp|exact Hu].
Qed.

Lemma mapping_get_perm (k : Value) (m1 m2 : Mapping_t) :
  Permutation m1 m2 -> keys_unique m1 -> mapping_get k m1 = mapping_get k m2.
Proof.
  intros Hp Hu. assert (Hu2 : keys_unique m2) by (eapply keys_unique_perm; eauto).
  destruct (mapping_get k m1) as [v|] eqn:E1.
  - destruct (mapping_get_In _ _ _ E1) as [k0 [Hin Hc]].
    symmetry. eapply In_mapping_get; [exact Hu2| |exact Hc].
    eapply Permutation_in; eauto.
  - destruct (mapping_get k m2) as [v|] eqn:E2; [|reflexivity].
    destruct (mapping_get_In _ _ _ E2) as [k0 [Hin Hc]].
    apply Permutation_sym in Hp.
    rewrite (In_mapping_get k k0 v m1 Hu (Permutation_in _ Hp Hin) Hc) in E1.
    discriminate.
Qed.

Lemma NoDup_snoc {A} (x : A) (l : list A) : NoDup l -> ~ In x l -> NoDup (l ++ [x]).
Proof.
  intros Hl Hx. eapply Permutation_NoDup; [apply Permutation_cons_append|].
  constructor; assumption.
Qed.

(** [Mapping::remove] on a mapping with unique keys returns the value of
    the key and leaves a mapping with unique keys, without that key, and
    the same value for every other key. *)
Lemma mapping_remove_spec (k : Value) (m : Mapping_t) :
  keys_unique m ->
  mapping_get k m = fst (mapping_remove k m) /\
  keys_unique (snd (mapping_remove k m)) /\
  (forall k', mapping_get k' (snd (mapping_remove k m)) =
              if value_eqb k' k then None else mapping_get k' m).
Proof.
  intros Hu. unfold mapping_remove.
  destruct (mapping_split k m) as [[[pre [k0 v]] post]|] eqn:Hs.
  - destruct (mapping_split_spec _ _ _ _ _ Hs) as [Hm Hk]. simpl in Hk.
    apply value_eqb_true in Hk.
    assert (Hu' : keys_unique (pre ++ post)).
    { unfold keys_unique in *. subst m. rewrite map_app in *. simpl in Hu.
      eapply NoDup_remove_1. exact Hu. }
    assert (Hnot : ~ In (canon k0) (map (fun kv => canon (fst kv)) (pre ++ post))).
    { unfold keys_unique in *. subst m. rewrite map_app in *. simpl in Hu.
      eapply NoDup_remove_2. exact Hu. }
    set (m' := match rev post with [] => pre | last :: rmid => pre ++ last :: rev rmid end).
    assert (Hp : Permutation (pre ++ post) m').
    { subst m'. destruct (rev post) as [|last rmid] eqn:Hr.
      - apply (f_equal (@rev _)) in Hr. rewrite rev_involutive in Hr. subst post.
        rewrite app_nil_r. reflexivity.
      - apply (f_equal (@rev _)) in Hr. rewrite rev_involutive in Hr. simpl in Hr.
        subst post. apply Permutation_app_head. symmetry. apply Permutation_cons_append. }
    simpl. split; [|split].
    + unfold mapping_get. rewrite Hs. reflexivity.
    + eapply keys_unique_perm; eauto.
    + intros k'. rewrite <- (mapping_get_perm k' _ _ Hp Hu').
      destruct (value_eqb k' k) eqn:E.
      * apply value_eqb_true in E.
        destruct (mapping_get k' (pre ++ post)) as [w|] eqn:Hw; [|reflexivity].
        destruct (mapping_get_In _ _ _ Hw) as [k1 [Hin Hc]].
        exfalso. apply Hnot. apply in_map_iff. exists (k1, w). simpl.
        split; [congruence|exact Hin].
      * subst m. rewrite mapping_get_skip; [reflexivity|].
        simpl. apply value_eqb_false. apply value_eqb_false in E. congruence.
  - simpl. split; [|split].
    + unfold mapping_get. rewrite Hs. reflexivity.
    + exact Hu.
    + intros k'. destruct (value_eqb k' k) eqn:E; [|reflexivity].
      apply value_eqb_true in E. rewrite (mapping_get_canon _ _ _ E).
      unfold mapping_get. rewrite Hs. reflexivity.
Qed.

(** [Mapping::insert] of an absent key appends it. *)
Lemma mapping_insert_absent (k v : Value) (m : Mapping_t) :
  keys_unique m -> mapping_get k m = None ->
  keys_unique (mapping_insert k v m) /\
  (forall k', mapping_get k' (mapping_insert k v m) =
              if value_eqb k' k then Some v else mapping_get k' m).
Proof.
  intros Hu Hk.
  assert (Hs : mapping_split k m = None).
  { unfold mapping_get in Hk. destruct (mapping_split k m) as [[[? [? ?]] ?]|]; congruence. }
  unfold mapping_insert. rewrite Hs. split.
  - unfold keys_unique in *. rewrite map_app. simpl. apply NoDup_snoc; [exact Hu|].
    intros Hin. apply in_map_iff in Hin as [[k0 v0] [Hc Hin]]. simpl in Hc.
    rewrite (In_mapping_get k k0 v0 m Hu Hin Hc) in Hk. discriminate.
  - intros k'. rewrite mapping_get_app_last.
    destruct (value_eqb k' k) eqn:E.
    + apply value_eqb_true in E. rewrite (mapping_get_canon _ _ _ E), Hk. reflexivity.
    + destruct (mapping_get k' m); reflexivity.
Qed.

Lemma failing_errors_ext (f : Value -> Value -> Valid Value) (l1 l2 rm : Mapping_t) :
  (forall kv, In kv rm -> mapping_get (fst kv) l1 = mapping_get (fst kv) l2) ->
  failing_errors f l1 rm = failing_errors f l2 rm.
Proof.
  intros H. unfold failing_errors. induction rm as [|kv t IH]; [reflexivity|].
  simpl. rewrite (H kv (or_introl eq_refl)), IH; [reflexivity|].
  intros kv' Hin. apply H. right. exact Hin.
Qed.

Lemma keys_unique_cons (k v : Value) (t : Mapping_t) :
  keys_unique ((k, v) :: t) ->
  keys_unique t /\ forall kv, In kv t -> value_eqb (fst kv) k = false.
Proof.
  unfold keys_unique. simpl. intros Hu. apply NoDup_cons_iff in Hu as [Hnot Hu].
  split; [exact Hu|]. intros kv Hin. apply value_eqb_false. intros Hc.
  apply Hnot. apply in_map_iff. exists kv. split; [exact Hc|exact Hin].
Qed.

Lemma mapping_get_absent (k : Value) (t : Mapping_t) :
  (forall kv, In kv t -> value_eqb (fst kv) k = false) -> mapping_get k t = None.
Proof.
  intros H. destruct (mapping_get k t) as [w|] eqn:E; [|reflexivity].
  destruct (mapping_get_In _ _ _ E) as [k0 [Hin Hc]].
  specialize (H _ Hin). simpl in H. apply value_eqb_false in H. congruence.
Qed.

(** The loop of the mapping arm, for any merge [f] of the values: the
    result maps every key to its key-wise union value, keeps keys unique,
    and its errors are the given ones followed by those of every failing
    shared key. *)
Lemma mapping_loop_spec (f : Value -> Value -> Valid Value)
      (rhs lhs : Mapping_t) (errors : ValidationError) :
  keys_unique lhs -> keys_unique rhs ->
  keys_unique (fst (mapping_loop f lhs rhs errors)) /\
  snd (mapping_loop f lhs rhs errors) = errors ++ failing_errors f lhs rhs /\
  (forall k, mapping_get k (fst (mapping_loop f lhs rhs errors)) = union_get f lhs rhs k).
Proof.
  revert lhs errors.
  induction rhs as [|[key ov] rest IH]; intros lhs errors Hl Hr.
  - simpl. split; [exact Hl|split; [symmetry; apply app_nil_r|]].
    intros k. unfold union_get. rewrite mapping_get_nil.
    destruct (mapping_get k lhs); reflexivity.
  - apply keys_unique_cons in Hr as [Hrest Hfresh].
    assert (Hnone : forall k, value_eqb k key = true -> mapping_get k rest = None).
    { intros k Hk. apply value_eqb_true in Hk.
      rewrite (mapping_get_canon k key rest Hk). apply mapping_get_absent.
      intros kv Hin. specialize (Hfresh kv Hin). apply value_eqb_false in Hfresh.
      apply value_eqb_false. congruence. }
    assert (Hget_r : forall k, mapping_get k ((key, ov) :: rest) =
                               if value_eqb k key then Some ov else mapping_get k rest)
      by (intros k; apply mapping_get_cons).
    destruct (mapping_remove_spec key lhs Hl) as [Hgk [Hu1 Hg1]].
    simpl. destruct (mapping_remove key lhs) as [[lv|] lhs1]. simpl in *.
    + assert (Hfail_rest : forall l2, (forall k, value_eqb k key = false ->
                                            mapping_get k l2 = mapping_get k lhs) ->
                                      failing_errors f l2 rest = failing_errors f lhs rest).
      { intros l2 Hl2. apply failing_errors_ext. intros kv Hin. apply Hl2, Hfresh, Hin. }
      destruct (f lv ov) as [mv|err] eqn:Hf.
      * assert (Habs : mapping_get key lhs1 = None).
        { rewrite Hg1. unfold value_eqb. rewrite bool_decide_eq_true_2 by reflexivity.
          reflexivity. }
        destruct (mapping_insert_absent key mv lhs1 Hu1 Habs) as [Hu2 Hg2].
        destruct (IH _ errors Hu2 Hrest) as [Hu3 [He3 Hg3]].
        split; [exact Hu3|split].
        -- rewrite He3. f_equal. unfold failing_errors at 2. simpl.
           rewrite Hgk, Hf. simpl. fold (failing_errors f lhs rest).
           apply Hfail_rest. intros k Hk. rewrite Hg2, Hk, Hg1, Hk. reflexivity.
        -- intros k. rewrite Hg3. unfold union_get. rewrite Hget_r, Hg2, Hg1.
           destruct (value_eqb k key) eqn:Ek.
           ++ rewrite (Hnone k Ek).
              apply value_eqb_true in Ek. rewrite (mapping_get_canon _ _ _ Ek), Hgk, Hf.
              reflexivity.
           ++ reflexivity.
      * destruct (IH _ (ValidationError_combine errors err) Hu1 Hrest) as [Hu3 [He3 Hg3]].
        split; [exact Hu3|split].
        -- rewrite He3. unfold ValidationError_combine. rewrite <- app_assoc. f_equal.
           unfold failing_errors at 2. simpl. rewrite Hgk, Hf.
           fold (failing_errors f lhs rest). f_equal.
           apply Hfail_rest. intros k Hk. rewrite Hg1, Hk. reflexivity.
        -- intros k. rewrite Hg3. unfold union_get. rewrite Hget_r, Hg1.
           destruct (value_eqb k key) eqn:Ek.
           ++ rewrite (Hnone k Ek).
              apply value_eqb_true in Ek. rewrite (mapping_get_canon _ _ _ Ek), Hgk, Hf.
              reflexivity.
           ++ reflexivity.
    + assert (Habs : mapping_get key lhs1 = None).
      { rewrite Hg1. unfold value_eqb. rewrite bool_decide_eq_true_2 by reflexivity.
        reflexivity. }
      destruct (mapping_insert_absent key ov lhs1 Hu1 Habs) as [Hu2 Hg2].
      destruct (IH _ errors Hu2 Hrest) as [Hu3 [He3 Hg3]].
      split; [exact Hu3|split].
      * rewrite He3. f_equal. unfold failing_errors at 2. simpl. rewrite Hgk.
        simpl. fold (failing_errors f lhs rest).
        apply failing_errors_ext. intros kv Hin. specialize (Hfresh kv Hin).
        rewrite Hg2, Hfresh, Hg1, Hfresh. reflexivity.
      * intros k. rewrite Hg3. unfold union_get. rewrite Hget_r, Hg2, Hg1.
        destruct (value_eqb k key) eqn:Ek.
        -- rewrite (Hnone k Ek).
           apply value_eqb_true in Ek. rewrite (mapping_get_canon _ _ _ Ek), Hgk.
           reflexivity.
        -- reflexivity.
Qed.

(** C1: merging two mappings (keys unique, as [Mapping] keeps them) gives
    their key-wise union: a shared key gets the merge of its two values,
    a right-only key its right value, a left-only key its left value.
    The loop of this arm, run with any merge of the values, gathers the
    errors of every failing shared key into one [Failure] instead of
    stopping at the first. *)
Theorem merge_right_mapping_union (lm rm : Mapping_t) :
  keys_unique lm -> keys_unique rm ->
  (exists m, merge_right (Mapping lm) (Mapping rm) = Success (Mapping m) /\
             forall k, mapping_get k m = union_get merge_right lm rm k) /\
  (forall f : Value -> Value -> Valid Value,
      failing_errors f lm rm <> [] ->
      mapping_finish (mapping_loop f lm rm ValidationError_empty)
      = Failure (failing_errors f lm rm)).
Proof.
  intros Hl Hr. split.
  - pose proof (proj2 (merge_right_never_fails Null Null) lm rm) as He.
    destruct (mapping_loop_spec merge_right rm lm ValidationError_empty Hl Hr)
      as [_ [_ Hg]].
    simpl. destruct (mapping_loop merge_right lm rm ValidationError_empty) as [m errs].
    simpl in He, Hg. subst errs. exists m. split; [reflexivity|exact Hg].
  - intros f Hne.
    destruct (mapping_loop_spec f rm lm ValidationError_empty Hl Hr) as [_ [He _]].
    destruct (mapping_loop f lm rm ValidationError_empty) as [m errs].
    simpl in He. subst errs. simpl.
    destruct (failing_errors f lm rm); [contradiction|reflexivity].
Qed.

Lemma merge_right_mapping_union_witness :
  keys_unique [(s "a", n 1); (s "b", n 2)] /\
  keys_unique [(s "a", n 3); (s "c", n 4)] /\
  exists m, merge_right (Mapping [(s "a", n 1); (s "b", n 2)])
                        (Mapping [(s "a", n 3); (s "c", n 4)]) = Success (Mapping m) /\
            mapping_get (s "a") m = Some (n 3).
Proof.
  assert (H1 : keys_unique [(s "a", n 1); (s "b", n 2)])
    by solve_keys_unique.
  assert (H2 : keys_unique [(s "a", n 3); (s "c", n 4)])
    by solve_keys_unique.
  split; [exact H1|split; [exact H2|]].
  destruct (proj1 (merge_right_mapping_union _ _ H1 H2)) as [m [Hm Hg]].
  exists m. split; [exact Hm|]. rewrite Hg. vm_compute. reflexivity.
Defined.

Lemma mapping_split_none (k : Value) (l : Mapping_t) :
  mapping_get k l = None -> mapping_split k l = None.
Proof.
  unfold mapping_get. destruct (mapping_split k l) as [[[? [? ?]] ?]|]; congruence.
Qed.

Lemma mapping_split_found (k k0 lv : Value) (pre post : Mapping_t) :
  mapping_get k pre = None -> value_eqb k k0 = true ->
  mapping_split k (pre ++ (k0, lv) :: post) = Some (pre, (k0, lv), post).
Proof.
  intros Hpre Hk. induction pre as [|[k1 v1] t IH]; simpl.
  - rewrite Hk. reflexivity.
  - rewrite mapping_get_cons in Hpre. destruct (value_eqb k k1); [discriminate|].
    rewrite (IH Hpre). reflexivity.
Qed.

Lemma merge_right_mapping_unfold (lhs rhs : Mapping_t) :
  merge_right (Mapping lhs) (Mapping rhs)
  = mapping_finish (mapping_loop merge_right lhs rhs ValidationError_empty).
Proof. reflexivity. Qed.

(** C7 (as stated) fails: merging [{a: 1, b: 2}] with [{a: 3}] moves the
    shared key [a] behind [b], and merging [{a: 1, b: 2, c: 3}] with
    [{a: 4}] puts the untouched [c] before [b]. *)
Lemma merge_right_mapping_order_counterexample :
  merge_right (Mapping [(s "a", n 1); (s "b", n 2)]) (Mapping [(s "a", n 3)])
  = Success (Mapping [(s "b", n 2); (s "a", n 3)]) /\
  merge_right (Mapping [(s "a", n 1); (s "b", n 2)]) (Mapping [(s "a", n 3)])
  <> Success (Mapping [(s "a", n 3); (s "b", n 2)]) /\
  merge_right (Mapping [(s "a", n 1); (s "b", n 2); (s "c", n 3)]) (Mapping [(s "a", n 4)])
  = Success (Mapping [(s "c", n 3); (s "b", n 2); (s "a", n 4)]).
Proof.
  split; [vm_compute; reflexivity|split; [|vm_compute; reflexivity]].
  vm_compute. discriminate.
Qed.

(** C7 (amended): the mapping arm processes the right entries one at a
    time, in the right mapping's order.  An absent key is appended.  A
    shared key is swap-removed (the current last entry takes its slot)
    and its merged value is appended at the end.  With no entry left,
    the current mapping is the result. *)
Theorem merge_right_mapping_steps :
  (forall lhs, merge_right (Mapping lhs) (Mapping []) = Success (Mapping lhs)) /\
  (forall lhs k v rest,
      mapping_get k lhs = None ->
      merge_right (Mapping lhs) (Mapping ((k, v) :: rest))
      = merge_right (Mapping (lhs ++ [(k, v)])) (Mapping rest)) /\
  (forall pre k0 lv k v rest m,
      mapping_get k pre = None -> value_eqb k k0 = true ->
      merge_right lv v = Success m ->
      merge_right (Mapping (pre ++ [(k0, lv)])) (Mapping ((k, v) :: rest))
      = merge_right (Mapping (pre ++ [(k, m)])) (Mapping rest)) /\
  (forall pre k0 lv mid last k v rest m,
      mapping_get k pre = None -> value_eqb k k0 = true ->
      mapping_get k (last :: mid) = None ->
      merge_right lv v = Success m ->
      merge_right (Mapping (pre ++ (k0, lv) :: mid ++ [last])) (Mapping ((k, v) :: rest))
      = merge_right (Mapping (pre ++ last :: mid ++ [(k, m)])) (Mapping rest)).
Proof.
  split; [|split; [|split]].
  - intros lhs. reflexivity.
  - intros lhs k v rest Hk. rewrite !merge_right_mapping_unfold. cbn [mapping_loop].
    unfold mapping_remove, mapping_insert. rewrite (mapping_split_none _ _ Hk).
    rewrite (mapping_split_none _ _ Hk). reflexivity.
  - intros pre k0 lv k v rest m Hpre Hk Hm. rewrite !merge_right_mapping_unfold.
    cbn [mapping_loop]. unfold mapping_remove.
    rewrite (mapping_split_found _ _ _ _ _ Hpre Hk). simpl rev. cbv iota.
    rewrite Hm. unfold mapping_insert. rewrite (mapping_split_none _ _ Hpre).
    reflexivity.
  - intros pre k0 lv mid last k v rest m Hpre Hk Hpost Hm.
    rewrite !merge_right_mapping_unfold.
    cbn [mapping_loop]. unfold mapping_remove.
    rewrite (mapping_split_found _ _ _ _ _ Hpre Hk).
    rewrite rev_app_distr. change (rev [last] ++ rev mid) with (last :: rev mid).
    cbv iota beta. rewrite rev_involutive.
    rewrite Hm. unfold mapping_insert.
    assert (Hnone : mapping_get k (pre ++ last :: mid) = None).
    { clear -Hpre Hpost. induction pre as [|[k1 v1] t IH]; [exact Hpost|].
      simpl. rewrite mapping_get_cons in *.
      destruct (value_eqb k k1); [discriminate|]. apply IH, Hpre. }
    rewrite (mapping_split_none _ _ Hnone). rewrite <- app_assoc. reflexivity.
Qed.

Lemma merge_right_mapping_steps_witness :
  mapping_get (s "a") [] = None /\ value_eqb (s "a") (s "a") = true /\
  mapping_get (s "a") [(s "b", n 2)] = None /\ merge_right (n 1) (n 3) = Success (n 3) /\
  merge_right (Mapping ([] ++ (s "a", n 1) :: [] ++ [(s "b", n 2)])) (Mapping [(s "a", n 3)])
  = merge_right (Mapping ([] ++ (s "b", n 2) :: [] ++ [(s "a", n 3)])) (Mapping []).
Proof.
  assert (H1 : mapping_get (s "a") [] = None) by reflexivity.
  assert (H2 : value_eqb (s "a") (s "a") = true) by (vm_compute; reflexivity).
  assert (H3 : mapping_get (s "a") [(s "b", n 2)] = None) by (vm_compute; reflexivity).
  assert (H4 : merge_right (n 1) (n 3) = Success (n 3)) by reflexivity.
  split; [exact H1|split; [exact H2|split; [exact H3|split; [exact H4|]]]].
  exact (proj2 (proj2 (proj2 merge_right_mapping_steps))
           [] (s "a") (n 1) [] (s "b", n 2) (s "a") (n 3) [] (n 3) H1 H2 H3 H4).
Defined.

(* ================================================================== *)
(** * Properties of the container merges *)

Section ArcMerge.
Context {A : Type} (merge_A : A -> A -> Valid A) (default : A).

Lemma arc_into_inner_unique (h : ArcHeap A) (p : Arc) (v : A) :
  h !! p = Some (v, 1) -> arc_into_inner h p = (Some v, delete p h).
Proof. intros Hp. unfold arc_into_inner. rewrite Hp. reflexivity. Qed.

Lemma arc_into_inner_shared (h : ArcHeap A) (p : Arc) (v : A) (c : nat) :
  h !! p = Some (v, c) -> c <> 1 ->
  arc_into_inner h p = (None, <[p := (v, Nat.pred c)]> h).
Proof.
  intros Hp Hc. unfold arc_into_inner. rewrite Hp.
  apply Nat.eqb_neq in Hc. rewrite Hc. reflexivity.
Qed.

Lemma arc_merge_right_holds (h : ArcHeap A) (p q : Arc) (l r : option A) (h1 h2 : ArcHeap A) (x : A) :
  arc_into_inner h p = (l, h1) -> arc_into_inner h1 q = (r, h2) ->
  option_merge_right merge_A l r = Success (Some x) \/
  (option_merge_right merge_A l r = Success None /\ x = default) ->
  arc_holds (arc_merge_right merge_A default h p q) x.
Proof.
  intros H1 H2 Hm. unfold arc_merge_right. rewrite H1, H2.
  destruct Hm as [Hm|[Hm ->]]; rewrite Hm; simpl; apply lookup_insert_eq.
Qed.

(** C9 (amended): [Arc::into_inner] runs on [self] first and on [other]
    second, on the strong counts they share.  For two distinct
    allocations, each side is recovered when its count is 1 and dropped
    otherwise: two recovered values are merged, a single one is kept as
    it is, and the default is used only when neither is recovered.  When
    [self] and [other] are two handles to one allocation, releasing
    [self] lowers the count [other] sees: with count 2 the value is
    recovered through [other] and kept, with a higher count neither
    side is recovered and the default is used. *)
Theorem arc_merge_right_spec (h : ArcHeap A) (p q : Arc) (vp vq : A) (cp cq : nat)
  (Hp : h !! p = Some (vp, cp)) (Hq : h !! q = Some (vq, cq)) :
  (p <> q ->
     (cp <> 1 -> cq <> 1 -> arc_holds (arc_merge_right merge_A default h p q) default) /\
     (cp <> 1 -> cq = 1 -> arc_holds (arc_merge_right merge_A default h p q) vq) /\
     (cp = 1 -> cq <> 1 -> arc_holds (arc_merge_right merge_A default h p q) vp) /\
     (forall c, cp = 1 -> cq = 1 -> merge_A vp vq = Success c ->
        arc_holds (arc_merge_right merge_A default h p q) c)) /\
  (p = q -> cp = 2 -> arc_holds (arc_merge_right merge_A default h p q) vp) /\
  (p = q -> 3 <= cp -> arc_holds (arc_merge_right merge_A default h p q) default).
Proof.
  split; [|split].
  - intros Hne. split; [|split; [|split]].
    + intros Hcp Hcq.
      eapply arc_merge_right_holds;
        [apply (arc_into_inner_shared _ _ _ _ Hp Hcp)
        |apply arc_into_inner_shared; [rewrite lookup_insert_ne by congruence; exact Hq|exact Hcq]
        |right; split; reflexivity].
    + intros Hcp Hcq. subst cq.
      eapply arc_merge_right_holds;
        [apply (arc_into_inner_shared _ _ _ _ Hp Hcp)
        |apply arc_into_inner_unique; rewrite lookup_insert_ne by congruence; exact Hq
        |left; reflexivity].
    + intros Hcp Hcq. subst cp.
      eapply arc_merge_right_holds;
        [apply (arc_into_inner_unique _ _ _ Hp)
        |apply arc_into_inner_shared; [rewrite lookup_delete_ne by congruence; exact Hq|exact Hcq]
        |left; reflexivity].
    + intros c Hcp Hcq Hc. subst cp cq.
      eapply arc_merge_right_holds;
        [apply (arc_into_inner_unique _ _ _ Hp)
        |apply arc_into_inner_unique; rewrite lookup_delete_ne by congruence; exact Hq
        |left; simpl; rewrite Hc; reflexivity].
  - intros <- ->.
    eapply arc_merge_right_holds;
      [apply (arc_into_inner_shared _ _ _ _ Hp); lia
      |apply arc_into_inner_unique; apply lookup_insert_eq
      |left; reflexivity].
  - intros <- Hc.
    eapply arc_merge_right_holds;
      [apply (arc_into_inner_shared _ _ _ _ Hp); lia
      |apply arc_into_inner_shared; [apply lookup_insert_eq|lia]
      |right; split; reflexivity].
Qed.
End ArcMerge.

(** C9 (as stated) fails: the shared right side is not replaced by the
    default [Null] and merged (which would append [Null] to the left
    sequence); it is dropped, and the left value is kept as it is. *)
Lemma arc_merge_right_default_counterexample :
  arc_holds (arc_merge_right merge_right value_default arc_heap_ex 0 1) (Sequence [Bool true]) /\
  merge_right (Sequence [Bool true]) value_default = Success (Sequence [Bool true; Null]) /\
  ~ arc_holds (arc_merge_right merge_right value_default arc_heap_ex 0 1)
              (Sequence [Bool true; Null]).
Proof.
  split; [vm_compute; reflexivity|split; [reflexivity|]].
  vm_compute. intros H. discriminate H.
Qed.

(** Two handles to one allocation of [Sequence [true]] (count 2): the
    value comes back through [other]. *)
Lemma arc_merge_right_spec_witness :
  ({[0 := (Sequence [Bool true], 2)]} : ArcHeap Value) !! 0 = Some (Sequence [Bool true], 2) /\
  arc_holds (arc_merge_right merge_right value_default
               ({[0 := (Sequence [Bool true], 2)]} : ArcHeap Value) 0 0)
            (Sequence [Bool true]).
Proof.
  assert (Hp : ({[0 := (Sequence [Bool true], 2)]} : ArcHeap Value) !! 0
               = Some (Sequence [Bool true], 2)) by reflexivity.
  split; [exact Hp|].
  exact (proj1 (proj2 (arc_merge_right_spec merge_right value_default _ 0 0 _ _ _ _ Hp Hp))
           eq_refl eq_refl).
Defined.

Lemma hashmap_extend_union `{Countable K} {V} (self other : gmap K V) :
  hashmap_extend self other = other ∪ self.
Proof.
  unfold hashmap_extend. induction other as [|i x m Hi IH] using map_ind.
  - rewrite map_fold_empty. symmetry. apply (left_id_L _ _).
  - rewrite map_fold_insert_L.
    + rewrite IH. apply insert_union_l.
    + intros j1 j2 z1 z2 y Hne _ _. apply insert_insert_ne. exact Hne.
    + exact Hi.
Qed.

(** C10: the extend-based merges always succeed: a [Vec] gets the left
    elements then the right ones, the two sets their union, and a
    [HashMap] every right entry, overwriting the left entry of the same
    key. *)
Theorem extend_merges_succeed :
  (forall A (l r : list A), vec_merge_right l r = Success (l ++ r)) /\
  (forall V `{Countable V} (l r : gset V), btreeset_merge_right l r = Success (l ∪ r)) /\
  (forall V `{Countable V} (l r : gset V), hashset_merge_right l r = Success (l ∪ r)) /\
  (forall K `{Countable K} V (l r : gmap K V),
      exists m, hashmap_merge_right l r = Success m /\
                forall k, m !! k = match r !! k with Some v => Some v | None => l !! k end).
Proof.
  split; [|split; [|split]]; try (intros; reflexivity).
  intros K EqK CK V l r. exists (hashmap_extend l r). split; [reflexivity|].
  intros k. rewrite hashmap_extend_union, lookup_union.
  destruct (r !! k), (l !! k); reflexivity.
Qed.

(* ================================================================== *)
(** * Further properties of [Value::merge_right] *)

(** Merging two mappings with unique keys gives a mapping with unique
    keys: the merge never duplicates a key. *)
Theorem merge_right_mapping_keys_unique (lm rm : Mapping_t) :
  keys_unique lm -> keys_unique rm ->
  exists m, merge_right (Mapping lm) (Mapping rm) = Success (Mapping m) /\ keys_unique m.
Proof.
  intros Hl Hr.
  pose proof (proj2 (merge_right_never_fails Null Null) lm rm) as He.
  destruct (mapping_loop_spec merge_right rm lm ValidationError_empty Hl Hr) as [Hu _].
  rewrite merge_right_mapping_unfold.
  destruct (mapping_loop merge_right lm rm ValidationError_empty) as [m errs].
  simpl in He, Hu. subst errs. exists m. split; [reflexivity|exact Hu].
Qed.

Lemma merge_right_mapping_keys_unique_witness :
  keys_unique [(s "a", n 1); (s "b", n 2)] /\ keys_unique [(s "b", n 3); (s "c", n 4)] /\
  exists m, merge_right (Mapping [(s "a", n 1); (s "b", n 2)])
                        (Mapping [(s "b", n 3); (s "c", n 4)]) = Success (Mapping m) /\
            keys_unique m.
Proof.
  assert (H1 : keys_unique [(s "a", n 1); (s "b", n 2)]) by solve_keys_unique.
  assert (H2 : keys_unique [(s "b", n 3); (s "c", n 4)]) by solve_keys_unique.
  split; [exact H1|split; [exact H2|]].
  exact (merge_right_mapping_keys_unique _ _ H1 H2).
Defined.

(** Right entries whose keys are new to the mapping are appended in order. *)
Lemma mapping_loop_fresh (f : Value -> Value -> Valid Value)
      (rest acc : Mapping_t) (errors : ValidationError) :
  keys_unique (acc ++ rest) -> mapping_loop f acc rest errors = (acc ++ rest, errors).
Proof.
  revert acc. induction rest as [|[k v] t IH]; intros acc Hu; simpl.
  - rewrite app_nil_r. reflexivity.
  - assert (Hk : mapping_get k acc = None).
    { destruct (mapping_get k acc) as [w|] eqn:E; [|reflexivity].
      destruct (mapping_get_In _ _ _ E) as [k0 [Hin Hc]].
      unfold keys_unique in Hu. rewrite map_app in Hu. simpl in Hu.
      exfalso. eapply (NoDup_remove_2 _ _ _ Hu).
      apply in_or_app. left. apply in_map_iff. exists (k0, w). split; [exact Hc|exact Hin]. }
    unfold mapping_remove, mapping_insert. rewrite (mapping_split_none _ _ Hk).
    rewrite (mapping_split_none _ _ Hk).
    rewrite IH; [rewrite <- app_assoc; reflexivity|].
    rewrite <- app_assoc. exact Hu.
Qed.

(** Merging two mappings whose keys are all distinct (unique within
    each, and no right key present on the left) appends the right
    entries after the left ones, both in their order. *)
Theorem merge_right_disjoint_mappings_append (lm rm : Mapping_t) :
  keys_unique (lm ++ rm) -> merge_right (Mapping lm) (Mapping rm) = Success (Mapping (lm ++ rm)).
Proof.
  intros Hu. rewrite merge_right_mapping_unfold, mapping_loop_fresh; [reflexivity|exact Hu].
Qed.

Lemma merge_right_disjoint_mappings_append_witness :
  keys_unique [(s "z", n 0); (s "b", n 2); (s "a", n 1)] /\
  merge_right (Mapping [(s "z", n 0)]) (Mapping [(s "b", n 2); (s "a", n 1)])
  = Success (Mapping [(s "z", n 0); (s "b", n 2); (s "a", n 1)]).
Proof.
  assert (H : keys_unique ([(s "z", n 0)] ++ [(s "b", n 2); (s "a", n 1)])) by solve_keys_unique.
  split; [exact H|exact (merge_right_disjoint_mappings_append _ _ H)].
Defined.

Lemma mapping_remove_length (k v : Value) (m m' : Mapping_t) :
  mapping_remove k m = (Some v, m') -> S (List.length m') = List.length m.
Proof.
  unfold mapping_remove.
  destruct (mapping_split k m) as [[[pre [k0 v0]] post]|] eqn:Hs; [|discriminate].
  intros E. injection E as _ <-.
  destruct (mapping_split_spec _ _ _ _ _ Hs) as [-> _].
  rewrite length_app. simpl.
  destruct (rev post) as [|last rmid] eqn:Hr.
  - apply (f_equal (@List.length _)) in Hr. rewrite length_rev in Hr. simpl in Hr.
    rewrite Hr. lia.
  - apply (f_equal (@List.length _)) in Hr. rewrite length_rev in Hr. simpl in Hr.
    rewrite ?length_app, ?length_rev. simpl. rewrite ?length_app, ?length_rev. lia.
Qed.

Lemma mapping_insert_absent_length (k v : Value) (m : Mapping_t) :
  mapping_get k m = None -> List.length (mapping_insert k v m) = S (List.length m).
Proof.
  intros Hk. unfold mapping_insert. rewrite (mapping_split_none _ _ Hk).
  rewrite length_app. simpl. lia.
Qed.

(** When every merge of a right value succeeds, the loop ends with the
    left entries plus one entry per right-only key. *)
Lemma mapping_loop_length (f : Value -> Value -> Valid Value)
      (rhs lhs : Mapping_t) (errors : ValidationError) :
  keys_unique lhs -> keys_unique rhs ->
  (forall kv, In kv rhs -> forall x, exists y, f x (snd kv) = Success y) ->
  List.length (fst (mapping_loop f lhs rhs errors)) =
  List.length lhs +
  List.length (filter (fun kv => match mapping_get (fst kv) lhs with
                                 | Some _ => false | None => true end) rhs).
Proof.
  revert lhs errors.
  induction rhs as [|[key ov] rest IH]; intros lhs errors Hl Hr Hall.
  - simpl. lia.
  - apply keys_unique_cons in Hr as [Hrest Hfresh].
    assert (Hall' : forall kv, In kv rest -> forall x, exists y, f x (snd kv) = Success y)
      by (intros kv Hin; apply Hall; right; exact Hin).
    destruct (mapping_remove_spec key lhs Hl) as [Hgk [Hu1 Hg1]].
    assert (Hfilter : forall l2, (forall k, value_eqb k key = false ->
                                       mapping_get k l2 = mapping_get k lhs) ->
              filter (fun kv => match mapping_get (fst kv) l2 with
                                | Some _ => false | None => true end) rest =
              filter (fun kv => match mapping_get (fst kv) lhs with
                                | Some _ => false | None => true end) rest).
    { intros l2 Hl2. apply filter_ext_in. intros kv Hin. rewrite (Hl2 _ (Hfresh kv Hin)).
      reflexivity. }
    simpl. destruct (mapping_remove key lhs) as [[lv|] lhs1] eqn:Er. simpl in *.
    + destruct (Hall (key, ov) (or_introl eq_refl) lv) as [mv Hf]. simpl in Hf.
      rewrite Hf.
      assert (Habs : mapping_get key lhs1 = None).
      { rewrite Hg1. unfold value_eqb. rewrite bool_decide_eq_true_2 by reflexivity.
        reflexivity. }
      destruct (mapping_insert_absent key mv lhs1 Hu1 Habs) as [Hu2 Hg2].
      rewrite (IH _ errors Hu2 Hrest Hall'), Hgk.
      rewrite (mapping_insert_absent_length _ _ _ Habs), (mapping_remove_length _ _ _ _ Er).
      rewrite Hfilter; [reflexivity|].
      intros k Hk. rewrite Hg2, Hk, Hg1, Hk. reflexivity.
    + assert (Hs : mapping_split key lhs = None) by (apply mapping_split_none; exact Hgk).
      unfold mapping_remove in Er. rewrite Hs in Er. injection Er as <-.
      destruct (mapping_insert_absent key ov lhs Hl Hgk) as [Hu2 Hg2].
      rewrite (IH _ errors Hu2 Hrest Hall'), Hgk.
      rewrite (mapping_insert_absent_length _ _ _ Hgk). simpl.
      rewrite Hfilter; [lia|].
      intros k Hk. rewrite Hg2, Hk. reflexivity.
Qed.

(** Merging two mappings with unique keys gives as many entries as the
    left mapping has, plus one per right key absent from the left: no
    entry is lost and none is doubled. *)
Theorem merge_right_mapping_length (lm rm : Mapping_t) :
  keys_unique lm -> keys_unique rm ->
  exists m, merge_right (Mapping lm) (Mapping rm) = Success (Mapping m) /\
            List.length m = List.length lm +
              List.length (filter (fun kv => match mapping_get (fst kv) lm with
                                             | Some _ => false | None => true end) rm).
Proof.
  intros Hl Hr.
  pose proof (proj2 (merge_right_never_fails Null Null) lm rm) as He.
  pose proof (mapping_loop_length merge_right rm lm ValidationError_empty Hl Hr
                (fun kv _ x => merge_right_succeeds (snd kv) x)) as Hlen.
  rewrite merge_right_mapping_unfold.
  destruct (mapping_loop merge_right lm rm ValidationError_empty) as [m errs].
  simpl in He, Hlen. subst errs. exists m. split; [reflexivity|exact Hlen].
Qed.

Lemma merge_right_mapping_length_witness :
  keys_unique [(s "a", n 1); (s "b", n 2)] /\ keys_unique [(s "b", n 3); (s "c", n 4)] /\
  exists m, merge_right (Mapping [(s "a", n 1); (s "b", n 2)])
                        (Mapping [(s "b", n 3); (s "c", n 4)]) = Success (Mapping m) /\
            List.length m = 3.
Proof.
  assert (H1 : keys_unique [(s "a", n 1); (s "b", n 2)]) by solve_keys_unique.
  assert (H2 : keys_unique [(s "b", n 3); (s "c", n 4)]) by solve_keys_unique.
  split; [exact H1|split; [exact H2|]].
  destruct (merge_right_mapping_length _ _ H1 H2) as [m [Hm Hl]].
  exists m. split; [exact Hm|]. rewrite Hl. vm_compute. reflexivity.
Defined.

(* ================================================================== *)
(** * Properties of [BTreeMap::merge_right] *)

Section BTreeMapProps.
Context `{Countable K} (key_leb : K -> K -> bool) {V : Type} (merge_V : V -> V -> Valid V).

Lemma insert_by_key_perm (e : K * V) (l : list (K * V)) :
  insert_by_key key_leb e l ≡ₚ e :: l.
Proof.
  induction l as [|e' t IH]; simpl; [reflexivity|].
  destruct (key_leb e.1 e'.1); [reflexivity|].
  rewrite IH. apply perm_swap.
Qed.

Lemma btreemap_entries_perm (m : gmap K V) : btreemap_entries key_leb m ≡ₚ map_to_list m.
Proof.
  unfold btreemap_entries. induction (map_to_list m) as [|e t IH]; simpl; [reflexivity|].
  rewrite insert_by_key_perm, IH. reflexivity.
Qed.

Lemma btreemap_entries_NoDup (m : gmap K V) : base.NoDup ((btreemap_entries key_leb m).*1).
Proof. rewrite btreemap_entries_perm. apply NoDup_fst_map_to_list. Qed.

Lemma btreemap_entries_to_map (m : gmap K V) :
  list_to_map (btreemap_entries key_leb m) = m.
Proof.
  rewrite (list_to_map_proper _ (map_to_list m)).
  - apply list_to_map_to_list.
  - apply btreemap_entries_NoDup.
  - apply btreemap_entries_perm.
Qed.

Lemma btreemap_failing_ext (s1 s2 : gmap K V) (entries : list (K * V)) :
  (forall kv, In kv entries -> s1 !! kv.1 = s2 !! kv.1) ->
  btreemap_failing merge_V s1 entries = btreemap_failing merge_V s2 entries.
Proof.
  intros Hs. unfold btreemap_failing. induction entries as [|kv t IH]; [reflexivity|].
  simpl. rewrite (Hs kv (or_introl eq_refl)), IH; [reflexivity|].
  intros kv' Hin. apply Hs. right. exact Hin.
Qed.

(** The loop over entries with distinct keys: every key gets its union
    value, and the errors are the given ones followed by those of every
    failing shared key, in iteration order. *)
Lemma btreemap_loop_spec (entries : list (K * V)) (self : gmap K V) (errors : ValidationError) :
  base.NoDup (entries.*1) ->
  (forall k, (btreemap_loop merge_V self entries errors).1 !! k =
             btreemap_union_get merge_V self (list_to_map entries) k) /\
  (btreemap_loop merge_V self entries errors).2 = errors ++ btreemap_failing merge_V self entries.
Proof.
  revert self errors.
  induction entries as [|[k0 v0] rest IH]; intros self errors Hnd.
  - simpl. split; [|symmetry; apply app_nil_r].
    intros k. unfold btreemap_union_get. rewrite lookup_empty.
    destruct (self !! k); reflexivity.
  - simpl in Hnd. inversion Hnd as [|x l Hk0 Hnd' Hxl]. subst x l. clear Hnd. rename Hnd' into Hnd.
    assert (Hnone : (list_to_map rest : gmap K V) !! k0 = None)
      by (apply not_elem_of_list_to_map_1; exact Hk0).
    assert (Hrest_ne : forall kv, In kv rest -> kv.1 <> k0).
    { intros kv Hin E. apply Hk0. rewrite <- E. apply list_elem_of_fmap_2.
      apply list_elem_of_In. exact Hin. }
    rewrite list_to_map_cons. cbn [btreemap_loop].
    destruct (self !! k0) as [sv|] eqn:Hs.
    + destruct (merge_V sv v0) as [mv|err] eqn:Hf.
      * destruct (IH (<[k0:=mv]> (delete k0 self)) errors Hnd) as [Hg He].
        split.
        -- intros k. rewrite Hg. unfold btreemap_union_get.
           destruct (decide (k = k0)) as [->|Hne].
           ++ rewrite !lookup_insert_eq, Hnone, Hs, Hf. reflexivity.
           ++ rewrite !lookup_insert_ne by congruence. rewrite lookup_delete_ne by congruence.
              reflexivity.
        -- rewrite He. unfold btreemap_failing at 2. simpl. rewrite Hs, Hf. simpl.
           f_equal. apply btreemap_failing_ext. intros kv Hin.
           rewrite lookup_insert_ne by (apply not_eq_sym, Hrest_ne, Hin).
           apply lookup_delete_ne. apply not_eq_sym, Hrest_ne, Hin.
      * destruct (IH (delete k0 self) (ValidationError_combine errors err) Hnd) as [Hg He].
        split.
        -- intros k. rewrite Hg. unfold btreemap_union_get.
           destruct (decide (k = k0)) as [->|Hne].
           ++ rewrite lookup_insert_eq, lookup_delete_eq, Hnone, Hs, Hf. reflexivity.
           ++ rewrite lookup_insert_ne by congruence. rewrite lookup_delete_ne by congruence.
              reflexivity.
        -- rewrite He. unfold ValidationError_combine. rewrite <- app_assoc. f_equal.
           unfold btreemap_failing at 2. simpl. rewrite Hs, Hf. f_equal.
           apply btreemap_failing_ext. intros kv Hin.
           apply lookup_delete_ne. apply not_eq_sym, Hrest_ne, Hin.
    + destruct (IH (<[k0:=v0]> self) errors Hnd) as [Hg He].
      split.
      * intros k. rewrite Hg. unfold btreemap_union_get.
        destruct (decide (k = k0)) as [->|Hne].
        -- rewrite !lookup_insert_eq, Hnone, Hs. reflexivity.
        -- rewrite !lookup_insert_ne by congruence. reflexivity.
      * rewrite He. unfold btreemap_failing at 2. simpl. rewrite Hs. simpl.
        f_equal. apply btreemap_failing_ext. intros kv Hin.
        apply lookup_insert_ne. apply not_eq_sym, Hrest_ne, Hin.
Qed.

(** [BTreeMap::merge_right] is the key-wise union when no shared key
    fails to merge; otherwise it is one [Failure] with the errors of all
    failing shared keys, in ascending key order. *)
Theorem btreemap_merge_right_spec (self other : gmap K V) :
  let errs := btreemap_failing merge_V self (btreemap_entries key_leb other) in
  (errs = [] -> exists m, btreemap_merge_right key_leb merge_V self other = Success m /\
                          forall k, m !! k = btreemap_union_get merge_V self other k) /\
  (errs <> [] -> btreemap_merge_right key_leb merge_V self other = Failure errs).
Proof.
  intros errs.
  destruct (btreemap_loop_spec (btreemap_entries key_leb other) self ValidationError_empty
              (btreemap_entries_NoDup other)) as [Hg He].
  rewrite btreemap_entries_to_map in Hg.
  unfold btreemap_merge_right.
  destruct (btreemap_loop merge_V self (btreemap_entries key_leb other) ValidationError_empty)
    as [m e] eqn:El.
  simpl in Hg, He. subst e. split.
  - intros Hnil. exists m. fold errs. rewrite Hnil. split; [reflexivity|exact Hg].
  - intros Hne. fold errs. destruct errs; [contradiction|reflexivity].
Qed.
End BTreeMapProps.

Lemma btreemap_merge_right_spec_witness :
  btreemap_failing merge_right ({[1%Z := Sequence [n 1]]} : gmap Z Value)
    (btreemap_entries Z.leb ({[1%Z := Sequence [n 2]; 2%Z := Null]} : gmap Z Value)) = [] /\
  exists m, btreemap_merge_right Z.leb merge_right
              ({[1%Z := Sequence [n 1]]} : gmap Z Value)
              ({[1%Z := Sequence [n 2]; 2%Z := Null]} : gmap Z Value) = Success m /\
            m !! 1%Z = Some (Sequence [n 1; n 2]).
Proof.
  assert (H : btreemap_failing merge_right ({[1%Z := Sequence [n 1]]} : gmap Z Value)
                (btreemap_entries Z.leb ({[1%Z := Sequence [n 2]; 2%Z := Null]} : gmap Z Value))
              = []) by (vm_compute; reflexivity).
  split; [exact H|].
  pose proof (btreemap_merge_right_spec Z.leb merge_right
                ({[1%Z := Sequence [n 1]]} : gmap Z Value)
                ({[1%Z := Sequence [n 2]; 2%Z := Null]} : gmap Z Value)) as Hs.
  cbv zeta in Hs. destruct (proj1 Hs H) as [m [Hm Hg]].
  exists m. split; [exact Hm|]. rewrite Hg. vm_compute. reflexivity.
Defined.

Example btreemap_merge_right_two_failures :
  btreemap_merge_right Z.leb (fun (_ _ : nat) => Failure ["conflict"%string])
    ({[1%Z := 0; 2%Z := 0]} : gmap Z nat) ({[1%Z := 1; 2%Z := 1; 3%Z := 1]} : gmap Z nat)
  = Failure ["conflict"%string; "conflict"%string].
Proof. vm_compute. reflexivity. Qed.

(* ================================================================== *)
(** * Strong references released by the [Arc] merge *)

Section ArcRelease.
Context {A : Type} (merge_A : A -> A -> Valid A) (default : A).

Lemma arc_into_inner_other (h : ArcHeap A) (p k : Arc) :
  k <> p -> snd (arc_into_inner h p) !! k = h !! k.
Proof.
  intros Hk. unfold arc_into_inner.
  destruct (h !! p) as [[v c]|]; [destruct (Nat.eqb c 1)|]; simpl;
    [apply lookup_delete_ne|apply lookup_insert_ne|reflexivity]; congruence.
Qed.

(** The new allocation of the result is fresh: every allocation alive
    after the two [into_inner] calls is left as it is. *)
Lemma arc_merge_right_heap (h : ArcHeap A) (p q k : Arc) :
  is_Some (snd (arc_into_inner (snd (arc_into_inner h p)) q) !! k) ->
  snd (arc_merge_right merge_A default h p q) !! k
  = snd (arc_into_inner (snd (arc_into_inner h p)) q) !! k.
Proof.
  unfold arc_merge_right.
  destruct (arc_into_inner h p) as [l h1]. simpl.
  destruct (arc_into_inner h1 q) as [r h2]. simpl. intros Hk.
  destruct (option_merge_right merge_A l r) as [o|e]; [|reflexivity].
  destruct (arc_new h2 (unwrap_or_default default o)) as [p' h3] eqn:En. unfold arc_new in En.
  injection En as <- <-. simpl. apply lookup_insert_ne.
  intros Heq. subst k. apply elem_of_dom in Hk. exact (is_fresh (dom h2) Hk).
Qed.

(** The merge consumes its two handles: each drops one strong reference
    to its allocation, so a value that other [Arc]s still hold stays
    with them (count lowered by one per handle), and every other
    allocation is left as it is. *)
Theorem arc_merge_right_releases (h : ArcHeap A) (p q : Arc) (vp vq : A) (cp cq : nat)
  (Hp : h !! p = Some (vp, cp)) (Hq : h !! q = Some (vq, cq)) :
  (p <> q -> cp <> 1 ->
     snd (arc_merge_right merge_A default h p q) !! p = Some (vp, Nat.pred cp)) /\
  (p <> q -> cq <> 1 ->
     snd (arc_merge_right merge_A default h p q) !! q = Some (vq, Nat.pred cq)) /\
  (p = q -> 3 <= cp ->
     snd (arc_merge_right merge_A default h p q) !! p = Some (vp, cp - 2)) /\
  (forall k x, k <> p -> k <> q -> h !! k = Some x ->
     snd (arc_merge_right merge_A default h p q) !! k = Some x).
Proof.
  split; [|split; [|split]].
  - intros Hne Hcp.
    assert (H2 : snd (arc_into_inner (snd (arc_into_inner h p)) q) !! p = Some (vp, Nat.pred cp)).
    { rewrite arc_into_inner_other by congruence.
      rewrite (arc_into_inner_shared _ _ _ _ Hp Hcp). apply lookup_insert_eq. }
    rewrite arc_merge_right_heap; [exact H2|rewrite H2; eexists; reflexivity].
  - intros Hne Hcq.
    assert (H1 : snd (arc_into_inner h p) !! q = Some (vq, cq))
      by (rewrite arc_into_inner_other by congruence; exact Hq).
    assert (H2 : snd (arc_into_inner (snd (arc_into_inner h p)) q) !! q = Some (vq, Nat.pred cq)).
    { rewrite (arc_into_inner_shared _ _ _ _ H1 Hcq). apply lookup_insert_eq. }
    rewrite arc_merge_right_heap; [exact H2|rewrite H2; eexists; reflexivity].
  - intros <- Hc.
    assert (H1 : snd (arc_into_inner h p) !! p = Some (vp, Nat.pred cp)).
    { rewrite (arc_into_inner_shared _ _ _ _ Hp) by lia. apply lookup_insert_eq. }
    assert (H2 : snd (arc_into_inner (snd (arc_into_inner h p)) p) !! p = Some (vp, cp - 2)).
    { rewrite (arc_into_inner_shared _ _ _ _ H1) by lia.
      cbn [snd]. rewrite lookup_insert_eq. do 2 f_equal. lia. }
    rewrite arc_merge_right_heap; [exact H2|rewrite H2; eexists; reflexivity].
  - intros k x Hkp Hkq Hk.
    assert (H2 : snd (arc_into_inner (snd (arc_into_inner h p)) q) !! k = Some x).
    { rewrite !arc_into_inner_other by assumption. exact Hk. }
    rewrite arc_merge_right_heap; [exact H2|rewrite H2; eexists; reflexivity].
Qed.
End ArcRelease.

(** Merging the unique [Arc] at 0 with one of the two handles to the
    allocation at 1 leaves that allocation to its other holder. *)
Lemma arc_merge_right_releases_witness :
  arc_heap_ex !! 0 = Some (Sequence [Bool true], 1) /\
  arc_heap_ex !! 1 = Some (Sequence [Bool false], 2) /\
  snd (arc_merge_right merge_right value_default arc_heap_ex 0 1) !! 1
  = Some (Sequence [Bool false], 1).
Proof.
  assert (Hp : arc_heap_ex !! 0 = Some (Sequence [Bool true], 1)) by reflexivity.
  assert (Hq : arc_heap_ex !! 1 = Some (Sequence [Bool false], 2)) by reflexivity.
  split; [exact Hp|split; [exact Hq|]].
  exact (proj1 (proj2 (arc_merge_right_releases merge_right value_default _ 0 1 _ _ _ _ Hp Hq))
           ltac:(discriminate) ltac:(discriminate)).
Defined.

(* ================================================================== *)
(** * Well-formed documents *)

Lemma value_wf_Sequence (l : list Value) : value_wf (Sequence l) <-> Forall value_wf l.
Proof.
  simpl. induction l as [|x t IH].
  - split; [constructor|tauto].
  - rewrite Forall_cons_iff, <- IH. reflexivity.
Qed.

Lemma value_wf_Mapping (m : Mapping_t) :
  value_wf (Mapping m) <->
  keys_unique m /\ Forall (fun kv => value_wf (fst kv) /\ value_wf (snd kv)) m.
Proof.
  simpl. apply and_iff_compat_l. induction m as [|[k x] t IH].
  - split; [constructor|tauto].
  - rewrite Forall_cons_iff, <- IH. reflexivity.
Qed.

Lemma mapping_remove_sub (k : Value) (m : Mapping_t) (e : Value * Value) :
  In e (snd (mapping_remove k m)) -> In e m.
Proof.
  unfold mapping_remove.
  destruct (mapping_split k m) as [[[pre [k0 v]] post]|] eqn:Hs; simpl; [|tauto].
  destruct (mapping_split_spec _ _ _ _ _ Hs) as [Hm _]. subst m.
  destruct (rev post) as [|last rmid] eqn:Hr; intros Hin.
  - apply in_or_app. left. exact Hin.
  - apply (f_equal (@rev _)) in Hr. rewrite rev_involutive in Hr. simpl in Hr. subst post.
    apply in_app_or in Hin as [Hin|[<-|Hin]]; apply in_or_app; [left; exact Hin| |].
    + right. right. apply in_or_app. right. left. reflexivity.
    + right. right. apply in_or_app. left. exact Hin.
Qed.

Lemma mapping_remove_found (k v : Value) (m m' : Mapping_t) :
  mapping_remove k m = (Some v, m') -> exists k0, In (k0, v) m.
Proof.
  unfold mapping_remove.
  destruct (mapping_split k m) as [[[pre [k0 w]] post]|] eqn:Hs; [|discriminate].
  intros H. injection H as <- _. destruct (mapping_split_spec _ _ _ _ _ Hs) as [Hm _].
  exists k0. subst m. apply in_or_app. right. left. reflexivity.
Qed.

Lemma mapping_insert_sub (k v : Value) (m : Mapping_t) (e : Value * Value) :
  In e (mapping_insert k v m) ->
  In e m \/ (snd e = v /\ (fst e = k \/ exists w, In (fst e, w) m)).
Proof.
  unfold mapping_insert.
  destruct (mapping_split k m) as [[[pre [k0 w]] post]|] eqn:Hs.
  - destruct (mapping_split_spec _ _ _ _ _ Hs) as [Hm _]. subst m. intros Hin.
    apply in_app_or in Hin as [Hin|[<-|Hin]].
    + left. apply in_or_app. left. exact Hin.
    + right. split; [reflexivity|]. right. exists w. apply in_or_app. right. left. reflexivity.
    + left. apply in_or_app. right. right. exact Hin.
  - intros Hin. apply in_app_or in Hin as [Hin|[<-|[]]]; [left; exact Hin|].
    right. split; [reflexivity|left; reflexivity].
Qed.

(** The loop of the mapping arm keeps keys and values well formed when
    the merge of two values does. *)
Lemma mapping_loop_wf (f : Value -> Value -> Valid Value)
      (rhs lhs : Mapping_t) (errors : ValidationError) :
  Forall (fun kv => value_wf (fst kv) /\ value_wf (snd kv)) lhs ->
  Forall (fun kv => value_wf (fst kv) /\ value_wf (snd kv)) rhs ->
  (forall kv lv w, In kv rhs -> value_wf lv -> f lv (snd kv) = Success w -> value_wf w) ->
  Forall (fun kv => value_wf (fst kv) /\ value_wf (snd kv)) (fst (mapping_loop f lhs rhs errors)).
Proof.
  revert lhs errors.
  induction rhs as [|[key ov] rest IH]; intros lhs errors Hl Hr Hf; [exact Hl|].
  apply Forall_cons_iff in Hr as [[Hkey Hov] Hrest]. simpl in Hkey, Hov.
  assert (Hf' : forall kv lv w, In kv rest -> value_wf lv -> f lv (snd kv) = Success w ->
                                value_wf w)
    by (intros kv lv w Hin; apply Hf; right; exact Hin).
  assert (Hsub : Forall (fun kv => value_wf (fst kv) /\ value_wf (snd kv))
                        (snd (mapping_remove key lhs))).
  { rewrite Forall_forall in *. intros e Hin. apply Hl. eapply mapping_remove_sub. exact Hin. }
  assert (Hins : forall v l1, value_wf v ->
                 Forall (fun kv => value_wf (fst kv) /\ value_wf (snd kv)) l1 ->
                 Forall (fun kv => value_wf (fst kv) /\ value_wf (snd kv)) (mapping_insert key v l1)).
  { intros v l1 Hv Hl1. rewrite Forall_forall in *. intros e Hin.
    destruct (mapping_insert_sub _ _ _ _ Hin) as [Hin'|[He [Hk|[w Hw]]]].
    - apply Hl1. exact Hin'.
    - rewrite He, Hk. split; assumption.
    - rewrite He. split; [apply (proj1 (Hl1 _ Hw))|exact Hv]. }
  simpl. destruct (mapping_remove key lhs) as [[lv|] lhs1] eqn:Hrem; simpl in Hsub.
  - assert (Hlv : value_wf lv).
    { destruct (mapping_remove_found _ _ _ _ Hrem) as [k0 Hin].
      rewrite Forall_forall in Hl. apply (proj2 (Hl _ Hin)). }
    destruct (f lv ov) as [mv|err] eqn:Hm.
    + apply IH; [|exact Hrest|exact Hf'].
      apply Hins; [|exact Hsub]. apply (Hf (key, ov) lv mv); [left; reflexivity|exact Hlv|exact Hm].
    + apply IH; [exact Hsub|exact Hrest|exact Hf'].
  - apply IH; [|exact Hrest|exact Hf']. apply Hins; [exact Hov|exact Hsub].
Qed.

(** Merging two well-formed documents gives a well-formed document:
    at every depth, the merged mappings keep their keys unique. *)
Theorem merge_right_preserves_wf (self other : Value) :
  value_wf self -> value_wf other ->
  forall v, merge_right self other = Success v -> value_wf v.
Proof.
  revert self.
  induction other as [| b | x | x | rs IH | rm IH | rt rv IH] using value_ind';
    intros self Hs Ho v Hm;
    destruct self as [| | | | ls | lm | lt lv]; simpl in Hm;
    try (injection Hm as <-; exact Ho).
  (* Sequence on the left, a value other than a sequence on the right *)
  all: try (injection Hm as <-; apply value_wf_Sequence;
            apply value_wf_Sequence in Hs; apply Forall_app; split;
            [exact Hs|constructor; [exact Ho|constructor]]).
  - (* Sequence, Sequence *)
    injection Hm as <-. apply value_wf_Sequence.
    apply value_wf_Sequence in Hs, Ho. apply Forall_app. split; assumption.
  - (* Mapping, Sequence *)
    injection Hm as <-. apply value_wf_Sequence.
    apply value_wf_Sequence in Ho. apply Forall_app. split; [exact Ho|].
    constructor; [exact Hs|constructor].
  - (* Mapping, Mapping *)
    apply value_wf_Mapping in Hs as [Hul Hel], Ho as [Hur Her].
    pose proof (proj2 (merge_right_never_fails Null Null) lm rm) as He.
    destruct (mapping_loop_spec merge_right rm lm ValidationError_empty Hul Hur) as [Hu _].
    pose proof (mapping_loop_wf merge_right rm lm ValidationError_empty Hel Her) as Hw.
    destruct (mapping_loop merge_right lm rm ValidationError_empty) as [m errs].
    simpl in He, Hu, Hw. subst errs. simpl in Hm. injection Hm as <-.
    apply value_wf_Mapping. split; [exact Hu|]. apply Hw.
    intros kv lw w Hin Hlw Hmw. rewrite Forall_forall in IH, Her.
    exact (proj2 (IH kv Hin) lw Hlw (proj2 (Her kv Hin)) w Hmw).
  - (* Tagged, Tagged *)
    destruct (tag_eqb lt rt).
    + destruct (merge_right lv rv) as [w|e] eqn:Hw; [|discriminate].
      injection Hm as <-. exact (IH lv Hs Ho w Hw).
    + injection Hm as <-. exact Ho.
Qed.

Lemma merge_right_preserves_wf_witness :
  value_wf (Mapping [(s "a", Mapping [(s "x", n 1)]); (s "b", n 0)]) /\
  value_wf (Mapping [(s "a", Mapping [(s "y", n 3); (s "x", n 2)])]) /\
  merge_right (Mapping [(s "a", Mapping [(s "x", n 1)]); (s "b", n 0)])
              (Mapping [(s "a", Mapping [(s "y", n 3); (s "x", n 2)])])
  = Success (Mapping [(s "b", n 0); (s "a", Mapping [(s "y", n 3); (s "x", n 2)])]) /\
  value_wf (Mapping [(s "b", n 0); (s "a", Mapping [(s "y", n 3); (s "x", n 2)])]).
Proof.
  assert (H1 : value_wf (Mapping [(s "a", Mapping [(s "x", n 1)]); (s "b", n 0)]))
    by (simpl; repeat split; solve_keys_unique).
  assert (H2 : value_wf (Mapping [(s "a", Mapping [(s "y", n 3); (s "x", n 2)])]))
    by (simpl; repeat split; solve_keys_unique).
  assert (H3 : merge_right (Mapping [(s "a", Mapping [(s "x", n 1)]); (s "b", n 0)])
                           (Mapping [(s "a", Mapping [(s "y", n 3); (s "x", n 2)])])
               = Success (Mapping [(s "b", n 0); (s "a", Mapping [(s "y", n 3); (s "x", n 2)])]))
    by (vm_compute; reflexivity).
  split; [exact H1|split; [exact H2|split; [exact H3|]]].
  exact (merge_right_preserves_wf _ _ H1 H2 _ H3).
Defined.
